(** * SearchSystem: literal-pattern automata, approximate matching, a^n b^n

    A shallow embedding of [searchsystem.cpp]:
    - [NFA] / [DFA] and their [simulate] methods,
    - [regexToNFA] (literal concatenation) and [nfaToDFA] (subset
      construction with a work queue),
    - [approximateMatch] (dynamic-programming table),
    - [PDA.simulate] (two-phase stack scan).

    Conventions.
    - [std::string] is the list of its [char]s ([list ascii]).
    - [int] values are [Z]; sizes and indices that the code only counts
      upwards from 0 are [nat].  All arithmetic of the program stays within
      the length of its inputs, so it is exact as long as those lengths fit
      an [int]; beyond that the C++ program has no defined behaviour.
    - [std::set<T>] is [gset T]; range-for over a set visits the elements
      in increasing order ([int_set_iter], [char_set_iter]).  [char] is
      ordered by its code, as where plain [char] is unsigned; where it is
      signed the codes from 128 on come first.  The order of the alphabet
      only decides in which order [nfaToDFA] numbers the subsets it
      discovers from one subset, and a chain has one successor at most.
    - [std::map<K,V>] is [gmap K V]; [operator[]] creates a
      value-initialised entry when the key is absent ([index]), so the
      methods that use it return the updated object next to their result.
    - [while] loops run on fuel and return [None] when it runs out. *)

From Stdlib Require Import ZArith Ascii String.
From stdpp Require Import gmap strings list fin_maps sorting.

#[local] Set Warnings "-clear-no-such-hyp".

Open Scope Z_scope.

(** ** Containers *)

Definition char_le (a b : ascii) : Prop := (nat_of_ascii a ≤ nat_of_ascii b)%nat.

#[global] Instance char_le_dec a b : Decision (char_le a b).
Proof. unfold char_le. apply _. Defined.

(** Range-for over [std::set<int>] and [std::set<char>]. *)
Definition int_set_iter (X : gset Z) : list Z := merge_sort Z.le (elements X).
Definition char_set_iter (X : gset ascii) : list ascii :=
  merge_sort char_le (elements X).

Section map_index.
Context `{Countable K} {V : Type}.

(** [m[k]] of a [std::map]: the stored value, or a fresh
    value-initialised entry [dflt] that is inserted on the way. *)
Definition index (dflt : V) (m : gmap K V) (k : K) : V * gmap K V :=
  match m !! k with
  | Some v => (v, m)
  | None => (dflt, <[k := dflt]> m)
  end.
End map_index.

(** ** Loops with early exit *)

Inductive ctl (S R : Type) : Type :=
| Next (s : S)     (* run the body again *)
| Done (s : S)     (* the loop condition is false *)
| Ret (r : R).     (* [return r] from inside the loop *)
Arguments Next {S R} s.
Arguments Done {S R} s.
Arguments Ret {S R} r.

Fixpoint while_loop {S R : Type} (fuel : nat) (body : S → ctl S R) (s : S)
  : option (S + R) :=
  match fuel with
  | O => None
  | Datatypes.S fuel' =>
      match body s with
      | Next s' => while_loop fuel' body s'
      | Done s' => Some (inl s')
      | Ret r => Some (inr r)
      end
  end.

(** ** NFA *)

Abbreviation nfa_table := (gmap Z (gmap ascii (gset Z))).

(** One round of [for (int s : current)]: the shared body of
    [NFA::simulate] and [nfaToDFA],
    [if (transitions[s].count(c)) next.insert(transitions[s][c]...)]. *)
Definition collect (c : ascii) (acc : gset Z * nfa_table) (s : Z)
  : gset Z * nfa_table :=
  let '(next, tr) := acc in
  let '(row, tr1) := index ∅ tr s in
  match row !! c with
  | Some tgt => (next ∪ tgt, tr1)
  | None => (next, tr1)
  end.

Module NFA.
Record t : Type := mk {
  states : gset Z;
  alphabet : gset ascii;
  transitions : nfa_table;
  startState : Z;
  finalStates : gset Z
}.

Definition set_transitions (tr : nfa_table) (nfa : t) : t :=
  mk (states nfa) (alphabet nfa) tr (startState nfa) (finalStates nfa).

(** [transitions[from][symbol].insert(to)] *)
Definition addTransition (from : Z) (symbol : ascii) (to : Z) (nfa : t) : t :=
  let '(row, tr1) := index ∅ (transitions nfa) from in
  let '(tgt, row1) := index ∅ row symbol in
  set_transitions (<[from := <[symbol := {[to]} ∪ tgt]> row1]> tr1) nfa.

(** The [for (char c : input)] loop: [None] is the early
    [return false] on an empty active set. *)
Fixpoint run (tr : nfa_table) (current : gset Z) (input : list ascii)
  : option (gset Z) * nfa_table :=
  match input with
  | [] => (Some current, tr)
  | c :: rest =>
      let '(next, tr') := foldl (collect c) (∅, tr) (int_set_iter current) in
      if decide (next = ∅) then (None, tr') else run tr' next rest
  end.

Definition simulate (nfa : t) (input : list ascii) : bool * t :=
  let '(r, tr) := run (transitions nfa) {[startState nfa]} input in
  (match r with
   | None => false
   | Some current =>
       existsb (λ s, bool_decide (s ∈ finalStates nfa)) (int_set_iter current)
   end,
   set_transitions tr nfa).
End NFA.

(** ** Regex → NFA (literal concatenation only) *)

Definition regexToNFA_step (acc : NFA.t * Z * Z) (c : ascii) : NFA.t * Z * Z :=
  let '(nfa, last, next) := acc in
  let nfa1 := NFA.addTransition last c next nfa in
  let nfa2 := NFA.mk ({[next]} ∪ NFA.states nfa1) ({[c]} ∪ NFA.alphabet nfa1)
                (NFA.transitions nfa1) (NFA.startState nfa1)
                (NFA.finalStates nfa1) in
  (nfa2, next, next + 1).

Definition regexToNFA (regex : list ascii) : NFA.t :=
  let nfa0 := NFA.mk {[0]} ∅ ∅ 0 ∅ in
  let '(nfa, last, _) := foldl regexToNFA_step (nfa0, 0, 1) regex in
  NFA.mk (NFA.states nfa) (NFA.alphabet nfa) (NFA.transitions nfa)
    (NFA.startState nfa) ({[last]} ∪ NFA.finalStates nfa).

(** ** DFA *)

Abbreviation dfa_table := (gmap Z (gmap ascii Z)).

Module DFA.
Record t : Type := mk {
  states : gset Z;
  alphabet : gset ascii;
  transitions : dfa_table;
  startState : Z;
  finalStates : gset Z
}.

Definition set_transitions (tr : dfa_table) (dfa : t) : t :=
  mk (states dfa) (alphabet dfa) tr (startState dfa) (finalStates dfa).

(** The [for (char c : input)] loop: [None] is the early
    [return false] on a missing entry. *)
Fixpoint run (tr : dfa_table) (current : Z) (input : list ascii)
  : option Z * dfa_table :=
  match input with
  | [] => (Some current, tr)
  | c :: rest =>
      let '(row, tr1) := index ∅ tr current in
      match row !! c with
      | None => (None, tr1)
      | Some to => run tr1 to rest
      end
  end.

Definition simulate (dfa : t) (input : list ascii) : bool * t :=
  let '(r, tr) := run (transitions dfa) (startState dfa) input in
  (match r with
   | None => false
   | Some current => bool_decide (current ∈ finalStates dfa)
   end,
   set_transitions tr dfa).
End DFA.

(** ** NFA → DFA *)

(** The locals of [nfaToDFA] while its queue loop runs. *)
Record conv : Type := mkConv {
  c_dfa : DFA.t;
  c_nfa : nfa_table;            (* nfa.transitions, reached through [NFA &] *)
  c_id : gmap (gset Z) Z;
  c_q : list (gset Z);          (* front of the queue first *)
  c_nextId : Z
}.

(** Body of [for (char c : dfa.alphabet)] for the subset [cur] with id [cid]. *)
Definition explore (cur : gset Z) (cid : Z) (σ : conv) (c : ascii) : conv :=
  let '(next, ntr) := foldl (collect c) (∅, c_nfa σ) (int_set_iter cur) in
  if decide (next = ∅) then
    mkConv (c_dfa σ) ntr (c_id σ) (c_q σ) (c_nextId σ)
  else
    let '(id1, q1, nextId1) :=
      match c_id σ !! next with
      | Some _ => (c_id σ, c_q σ, c_nextId σ)
      | None => (<[next := c_nextId σ]> (c_id σ), c_q σ ++ [next], c_nextId σ + 1)
      end in
    let '(to, id2) := index 0 id1 next in
    let '(row, dtr1) := index ∅ (DFA.transitions (c_dfa σ)) cid in
    mkConv (DFA.set_transitions (<[cid := <[c := to]> row]> dtr1) (c_dfa σ))
      ntr id2 q1 nextId1.

(** Body of [for (int s : cur)] marking [cid] final. *)
Definition mark_final (nfa_finals : gset Z) (cid : Z) (fin : gset Z) (s : Z)
  : gset Z :=
  if decide (s ∈ nfa_finals) then {[cid]} ∪ fin else fin.

(** One turn of [while (!q.empty())]. *)
Definition nfaToDFA_body (nfa_finals : gset Z) (σ : conv) : ctl conv Empty_set :=
  match c_q σ with
  | [] => Done σ
  | cur :: q' =>
      let '(cid, id1) := index 0 (c_id σ) cur in
      let d := c_dfa σ in
      let d1 := DFA.mk ({[cid]} ∪ DFA.states d) (DFA.alphabet d)
                  (DFA.transitions d) (DFA.startState d) (DFA.finalStates d) in
      let σ1 := mkConv d1 (c_nfa σ) id1 q' (c_nextId σ) in
      let σ2 := foldl (explore cur cid) σ1 (char_set_iter (DFA.alphabet d1)) in
      let d2 := c_dfa σ2 in
      let fin := foldl (mark_final nfa_finals cid) (DFA.finalStates d2)
                   (int_set_iter cur) in
      Next (mkConv (DFA.mk (DFA.states d2) (DFA.alphabet d2)
                      (DFA.transitions d2) (DFA.startState d2) fin)
              (c_nfa σ2) (c_id σ2) (c_q σ2) (c_nextId σ2))
  end.

Definition nfaToDFA_init (nfa : NFA.t) : conv :=
  let start : gset Z := {[NFA.startState nfa]} in
  mkConv (DFA.mk ∅ (NFA.alphabet nfa) ∅ 0 ∅) (NFA.transitions nfa)
    (<[start := 0]> ∅) [start] 1.

(** [nfaToDFA]: the DFA, and the NFA as the call leaves it. *)
Definition nfaToDFA (fuel : nat) (nfa : NFA.t) : option (DFA.t * NFA.t) :=
  match while_loop fuel (nfaToDFA_body (NFA.finalStates nfa)) (nfaToDFA_init nfa) with
  | Some (inl σ) => Some (c_dfa σ, NFA.set_transitions (c_nfa σ) nfa)
  | _ => None
  end.




Definition str (s : string) : list ascii := list_ascii_of_string s.

(** ** Approximate matching *)

(** [dp[i][j]] and [dp[i][j] = v] on a [vector<vector<int>>]. *)
Definition dp_read (dp : list (list Z)) (i j : nat) : Z :=
  default 0 (dp !! i ≫= (.!! j)).

Definition dp_write (dp : list (list Z)) (i j : nat) (v : Z) : list (list Z) :=
  alter (<[j := v]>) i dp.

(** Body of the inner loop, [for (int j = 1; j <= m; j++)]. *)
Definition dp_cell (text pattern : list ascii) (i : nat) (dp : list (list Z)) (j : nat)
  : list (list Z) :=
  if decide (text !! (i - 1)%nat = pattern !! (j - 1)%nat) then
    dp_write dp i j (dp_read dp (i - 1) (j - 1))
  else
    dp_write dp i j
      (1 + Z.min (dp_read dp (i - 1) j)
             (Z.min (dp_read dp i (j - 1)) (dp_read dp (i - 1) (j - 1)))).

(** Body of the outer loop, [for (int i = 1; i <= n; i++)]. *)
Definition dp_row (text pattern : list ascii) (dp : list (list Z)) (i : nat)
  : list (list Z) :=
  foldl (dp_cell text pattern i) (dp_write dp i 0 0) (seq 1 (length pattern)).

(** The table once both filling loops are through. *)
Definition dp_fill (text pattern : list ascii) : list (list Z) :=
  let n := length text in
  let m := length pattern in
  let dp0 := replicate (n + 1) (replicate (m + 1) 0) in
  let dp1 := foldl (λ dp j, dp_write dp 0 j (Z.of_nat j)) dp0 (seq 0 (m + 1)) in
  foldl (dp_row text pattern) dp1 (seq 1 n).

Definition approximateMatch (text pattern : list ascii) (maxErrors : Z) : bool :=
  let n := length text in
  let m := length pattern in
  let dp := dp_fill text pattern in
  existsb (λ i, bool_decide (dp_read dp i m ≤ maxErrors)) (seq m (n + 1 - m)).

(** ** PDA for a^n b^n *)

Module PDA.
Definition push_phase (input : list ascii) (s : list ascii * nat)
  : ctl (list ascii * nat) bool :=
  let '(st, i) := s in
  if bool_decide (i < length input)%nat && bool_decide (input !! i = Some "a"%char)
  then Next ("A"%char :: st, S i)
  else Done (st, i).

Definition pop_phase (input : list ascii) (s : list ascii * nat)
  : ctl (list ascii * nat) bool :=
  let '(st, i) := s in
  if bool_decide (i < length input)%nat && bool_decide (input !! i = Some "b"%char)
  then match st with
       | [] => Ret false
       | _ :: st' => Next (st', S i)
       end
  else Done (st, i).

(** Each loop moves [i] forward, so [length input + 1] turns are enough;
    [None] would mean a loop was cut short. *)
Definition simulate (input : list ascii) : option bool :=
  let fuel := S (length input) in
  match while_loop fuel (push_phase input) ([], 0%nat) with
  | Some (inl s1) =>
      match while_loop fuel (pop_phase input) s1 with
      | Some (inl (st, i)) =>
          Some (bool_decide (i = length input) && bool_decide (st = []))
      | Some (inr r) => Some r
      | None => None
      end
  | Some (inr r) => Some r
  | None => None
  end.
End PDA.

(** The older copy of the program, [automata_searchsystem/searchsystem.cpp],
    has the same matcher with the three neighbours listed in another
    order. *)
Module automata_searchsystem.
Definition dp_cell (sequence pattern : list ascii) (i : nat) (dp : list (list Z))
  (j : nat) : list (list Z) :=
  if decide (sequence !! (i - 1)%nat = pattern !! (j - 1)%nat) then
    dp_write dp i j (dp_read dp (i - 1) (j - 1))
  else
    dp_write dp i j
      (1 + Z.min (dp_read dp (i - 1) (j - 1))
             (Z.min (dp_read dp i (j - 1)) (dp_read dp (i - 1) j))).

Definition dp_row (sequence pattern : list ascii) (dp : list (list Z)) (i : nat)
  : list (list Z) :=
  foldl (dp_cell sequence pattern i) (dp_write dp i 0 0) (seq 1 (length pattern)).

Definition dp_fill (sequence pattern : list ascii) : list (list Z) :=
  let n := length sequence in
  let m := length pattern in
  let dp0 := replicate (n + 1) (replicate (m + 1) 0) in
  let dp1 := foldl (λ dp j, dp_write dp 0 j (Z.of_nat j)) dp0 (seq 0 (m + 1)) in
  foldl (dp_row sequence pattern) dp1 (seq 1 n).

Definition approximateMatch (sequence pattern : list ascii) (maxErrors : Z) : bool :=
  let n := length sequence in
  let m := length pattern in
  let dp := dp_fill sequence pattern in
  existsb (λ i, bool_decide (dp_read dp i m ≤ maxErrors)) (seq m (n + 1 - m)).
End automata_searchsystem.

(** * Definitions used to state and prove the claims *)

(** Row of state [q] in the chain for [regex]: one edge to [q + 1] on the
    [q]-th symbol, and no row at all from the last state on. *)
Definition chain_row (regex : list ascii) (q : Z) : option (gmap ascii (gset Z)) :=
  if decide (0 ≤ q) then (λ c, {[c := {[q + 1]}]}) <$> regex !! Z.to_nat q
  else None.

(** [q --c--> q'] is an edge of the table. *)
Definition edge (tr : nfa_table) (q : Z) (c : ascii) (q' : Z) : Prop :=
  ∃ row tgt, tr !! q = Some row ∧ row !! c = Some tgt ∧ q' ∈ tgt.

(** Targets of [q] on [c]; a missing row and a missing entry both give
    the empty set. *)
Definition targets (tr : nfa_table) (q : Z) (c : ascii) : gset Z :=
  default ∅ (tr !! q ≫= (.!! c)).

(** [tr'] is [tr] with, possibly, rows that hold no entry added for
    states that had no row. *)
Definition grown {V : Type} (tr tr' : gmap Z (gmap ascii V)) : Prop :=
  ∀ q, tr' !! q = tr !! q ∨ (tr !! q = None ∧ tr' !! q = Some ∅).

Definition NFA_grown (nfa nfa' : NFA.t) : Prop :=
  NFA.states nfa' = NFA.states nfa
  ∧ NFA.alphabet nfa' = NFA.alphabet nfa
  ∧ grown (NFA.transitions nfa) (NFA.transitions nfa')
  ∧ NFA.startState nfa' = NFA.startState nfa
  ∧ NFA.finalStates nfa' = NFA.finalStates nfa.

(** "Look up the transition": the recorded destination, if any. *)
Definition dfa_next (tr : dfa_table) (q : Z) (c : ascii) : option Z :=
  tr !! q ≫= (.!! c).

(** "Starts at [start]; for each symbol, look up the transition; a missing
    entry is an immediate reject." *)
Fixpoint dfa_walk (tr : dfa_table) (q : Z) (input : list ascii) : option Z :=
  match input with
  | [] => Some q
  | c :: rest =>
      match dfa_next tr q c with
      | None => None
      | Some q' => dfa_walk tr q' rest
      end
  end.

(** "After exhausting input, accepts iff the current state is in [finals]." *)
Definition dfa_accepts (dfa : DFA.t) (input : list ascii) : bool :=
  match dfa_walk (DFA.transitions dfa) (DFA.startState dfa) input with
  | None => false
  | Some q => bool_decide (q ∈ DFA.finalStates dfa)
  end.

Definition DFA_grown (dfa dfa' : DFA.t) : Prop :=
  DFA.states dfa' = DFA.states dfa
  ∧ DFA.alphabet dfa' = DFA.alphabet dfa
  ∧ grown (DFA.transitions dfa) (DFA.transitions dfa')
  ∧ DFA.startState dfa' = DFA.startState dfa
  ∧ DFA.finalStates dfa' = DFA.finalStates dfa.

Fixpoint dfa_chain_table (regex : list ascii) (k : nat) : dfa_table :=
  match k with
  | O => ∅
  | S k' =>
      match regex !! k' with
      | Some c => <[Z.of_nat k' := {[c := Z.of_nat k]}]> (dfa_chain_table regex k')
      | None => dfa_chain_table regex k'
      end
  end.

Fixpoint id_chain (k : nat) : gmap (gset Z) Z :=
  match k with
  | O => <[{[0]} := 0]> ∅
  | S k' => <[{[Z.of_nat k]} := Z.of_nat k]> (id_chain k')
  end.

(** The locals of [nfaToDFA] on the chain of [regex] when the subsets
    [{0}], ..., [{k-1}] are done and [{k}] waits in the queue. *)
Definition chain_mid (regex : list ascii) (k : nat) : conv :=
  mkConv
    (DFA.mk (list_to_set (seqZ 0 (Z.of_nat k))) (list_to_set regex)
       (dfa_chain_table regex k) 0 ∅)
    (NFA.transitions (regexToNFA regex))
    (id_chain k) [{[Z.of_nat k]}] (Z.of_nat k + 1).

(** The NFA table once the conversion has looked up the row of the last
    state, which happens as soon as the alphabet is not empty. *)
Definition chain_touched (regex : list ascii) : nfa_table :=
  match regex with
  | [] => NFA.transitions (regexToNFA regex)
  | _ => <[Z.of_nat (length regex) := ∅]> (NFA.transitions (regexToNFA regex))
  end.

(** The DFA of the chain: same states, same edges, same final state. *)
Definition chain_dfa (regex : list ascii) : DFA.t :=
  DFA.mk (list_to_set (seqZ 0 (Z.of_nat (length regex) + 1))) (list_to_set regex)
    (dfa_chain_table regex (length regex)) 0 {[Z.of_nat (length regex)]}.

(** The locals when the queue has run empty. *)
Definition chain_end (regex : list ascii) : conv :=
  mkConv (chain_dfa regex) (chain_touched regex)
    (id_chain (length regex)) [] (Z.of_nat (length regex) + 1).

(** The table of the specification: [dp[0][j] = j], [dp[i][0] = 0], and for
    [i, j ≥ 1] the diagonal on equal symbols and one more than the least
    of diagonal, left and upper neighbour otherwise. *)
Fixpoint dp_spec (text pattern : list ascii) (i : nat) : nat → Z :=
  match i with
  | O => λ j, Z.of_nat j
  | S i' =>
      fix row (j : nat) : Z :=
        match j with
        | O => 0
        | S j' =>
            if decide (text !! i' = pattern !! j') then dp_spec text pattern i' j'
            else 1 + Z.min (dp_spec text pattern i' j')
                       (Z.min (row j') (dp_spec text pattern i' j))
        end
  end.

Definition table_shape (n m : nat) (dp : list (list Z)) : Prop :=
  length dp = n ∧ Forall (λ row, length row = m) dp.

(** Rows below [i] are final. *)
Definition rows_done (text pattern : list ascii) (i : nat) (dp : list (list Z)) : Prop :=
  table_shape (length text + 1) (length pattern + 1) dp
  ∧ ∀ i' j, (i' < i)%nat → (j ≤ length pattern)%nat →
            dp_read dp i' j = dp_spec text pattern i' j.

(** Rows below [i] are final, and so is row [i] left of column [j]. *)
Definition cells_done (text pattern : list ascii) (i j : nat) (dp : list (list Z)) : Prop :=
  rows_done text pattern i dp
  ∧ ∀ j', (j' < j)%nat → dp_read dp i j' = dp_spec text pattern i j'.

(** * Lemmas *)

(** ** The chain built by [regexToNFA] *)

Lemma chain_row_last regex : chain_row regex (Z.of_nat (length regex)) = None.
Proof.
  unfold chain_row. case_decide; [|done].
  rewrite Nat2Z.id, lookup_ge_None_2; [done | lia].
Qed.

Lemma chain_row_snoc regex c q :
  chain_row (regex ++ [c]) q =
  if decide (q = Z.of_nat (length regex)) then Some {[c := {[q + 1]}]}
  else chain_row regex q.
Proof.
  destruct (decide (q = _)) as [->|Hq]; unfold chain_row.
  - rewrite decide_True by lia.
    rewrite Nat2Z.id, lookup_app_r, Nat.sub_diag by lia. done.
  - case_decide; [|done].
    destruct (decide (Z.to_nat q < length regex)%nat).
    + by rewrite lookup_app_l.
    + rewrite !lookup_ge_None_2; [done | lia |].
      rewrite length_app. simpl. lia.
Qed.

Lemma addTransition_fresh from symbol to nfa :
  NFA.transitions nfa !! from = None →
  NFA.addTransition from symbol to nfa =
  NFA.set_transitions (<[from := {[symbol := {[to]}]}]> (NFA.transitions nfa)) nfa.
Proof.
  intros Hfrom. unfold NFA.addTransition, index. rewrite Hfrom. simpl.
  rewrite lookup_empty. f_equal.
  rewrite insert_insert_eq. f_equal.
  rewrite insert_insert_eq, insert_empty. f_equal. apply (right_id_L ∅ (∪)).
Qed.

Lemma regexToNFA_fold regex :
  ∃ nfa,
    foldl regexToNFA_step (NFA.mk {[0]} ∅ ∅ 0 ∅, 0, 1) regex
    = (nfa, Z.of_nat (length regex), Z.of_nat (length regex) + 1)
    ∧ NFA.states nfa = list_to_set (seqZ 0 (Z.of_nat (length regex) + 1))
    ∧ NFA.alphabet nfa = list_to_set regex
    ∧ (∀ q, NFA.transitions nfa !! q = chain_row regex q)
    ∧ NFA.startState nfa = 0
    ∧ NFA.finalStates nfa = ∅.
Proof.
  induction regex as [|c regex IH] using rev_ind.
  - eexists. split; [reflexivity|]. simpl. split_and!; try done.
    intros q. unfold chain_row. by case_decide.
  - destruct IH as (nfa & Hfold & Hst & Hal & Htr & Hs & Hf).
    rewrite foldl_app, Hfold. simpl.
    rewrite addTransition_fresh by (rewrite Htr; apply chain_row_last).
    replace (Z.of_nat (length (regex ++ [c]))) with (Z.of_nat (length regex) + 1)
      by (rewrite length_app; simpl; lia).
    eexists. split; [reflexivity|].
    simpl. split_and!; try done.
    + rewrite Hst. apply set_eq. intros x.
      rewrite elem_of_union, !elem_of_list_to_set, !elem_of_seqZ, elem_of_singleton.
      lia.
    + rewrite Hal, list_to_set_app_L. simpl. set_solver.
    + intros q. rewrite chain_row_snoc. case_decide as Hq.
      * subst q. by rewrite lookup_insert_eq.
      * rewrite lookup_insert_ne by lia. apply Htr.
Qed.

(** [regexToNFA] in closed form. *)
Lemma regexToNFA_fields regex :
  let nfa := regexToNFA regex in
  NFA.states nfa = list_to_set (seqZ 0 (Z.of_nat (length regex) + 1))
  ∧ NFA.alphabet nfa = list_to_set regex
  ∧ (∀ q, NFA.transitions nfa !! q = chain_row regex q)
  ∧ NFA.startState nfa = 0
  ∧ NFA.finalStates nfa = {[Z.of_nat (length regex)]}.
Proof.
  unfold regexToNFA.
  destruct (regexToNFA_fold regex) as (nfa & -> & Hst & Hal & Htr & Hs & Hf).
  simpl. split_and!; try done. rewrite Hf. set_solver.
Qed.

(** ** What [operator[]] does to a table *)

Lemma grown_refl {V} (tr : gmap Z (gmap ascii V)) : grown tr tr.
Proof. intros q. by left. Qed.

Lemma grown_trans {V} (tr1 tr2 tr3 : gmap Z (gmap ascii V)) :
  grown tr1 tr2 → grown tr2 tr3 → grown tr1 tr3.
Proof.
  intros H12 H23 q. destruct (H12 q) as [E1|[E1 E1']], (H23 q) as [E2|[E2 E2']].
  - left. congruence.
  - right. split; congruence.
  - right. split; congruence.
  - congruence.
Qed.

Lemma grown_entry {V} (tr tr' : gmap Z (gmap ascii V)) q c :
  grown tr tr' → tr' !! q ≫= (.!! c) = tr !! q ≫= (.!! c).
Proof. intros Hg. destruct (Hg q) as [->|[-> ->]]; done. Qed.

Lemma grown_targets tr tr' q c : grown tr tr' → targets tr' q c = targets tr q c.
Proof. intros Hg. unfold targets. by rewrite (grown_entry tr tr'). Qed.

Lemma index_grown {V} (tr : gmap Z (gmap ascii V)) q : grown tr (index ∅ tr q).2.
Proof.
  unfold index. destruct (tr !! q) eqn:E; simpl; [apply grown_refl|].
  intros q'. destruct (decide (q = q')) as [<-|Hne].
  - right. by rewrite lookup_insert_eq.
  - left. by rewrite lookup_insert_ne.
Qed.

Lemma index_entry {V} (tr : gmap Z (gmap ascii V)) q c :
  (index ∅ tr q).1 !! c = tr !! q ≫= (.!! c).
Proof. unfold index. destruct (tr !! q); done. Qed.

Lemma collect_spec c next tr s :
  collect c (next, tr) s = (next ∪ targets tr s c, (index ∅ tr s).2).
Proof.
  unfold collect, targets. pose proof (index_entry tr s c) as He.
  destruct (index ∅ tr s) as [row tr1]. simpl in *. rewrite He.
  destruct (tr !! s ≫= (.!! c)); simpl; [done|].
  by rewrite (right_id_L ∅ (∪)).
Qed.

Lemma foldl_collect c l : ∀ next tr,
  ∃ tr', foldl (collect c) (next, tr) l
         = (next ∪ ⋃ ((λ s, targets tr s c) <$> l), tr')
         ∧ grown tr tr'.
Proof.
  induction l as [|s l IH]; intros next tr.
  - exists tr. simpl. rewrite (right_id_L ∅ (∪)). split; [done | apply grown_refl].
  - change (foldl (collect c) (next, tr) (s :: l))
      with (foldl (collect c) (collect c (next, tr) s) l).
    rewrite collect_spec, fmap_cons. cbn [union_list foldr].
    destruct (IH (next ∪ targets tr s c) (index ∅ tr s).2) as (tr' & -> & Hg).
    pose proof (index_grown tr s) as Hg0.
    exists tr'. split; [|by eapply grown_trans].
    f_equal. rewrite <-(assoc_L (∪)). do 3 f_equal.
    apply list_fmap_ext. intros _ q _. by apply grown_targets.
Qed.

Lemma NFA_run_grown input : ∀ tr current, grown tr (NFA.run tr current input).2.
Proof.
  induction input as [|c rest IH]; intros tr current; simpl; [apply grown_refl|].
  destruct (foldl_collect c (int_set_iter current) ∅ tr) as (tr' & -> & Hg).
  case_decide; simpl; [done|].
  eapply grown_trans; [exact Hg | apply IH].
Qed.

Lemma int_set_iter_singleton (q : Z) : int_set_iter {[q]} = [q].
Proof. unfold int_set_iter. by rewrite elements_singleton. Qed.

Lemma elem_of_int_set_iter (X : gset Z) q : q ∈ int_set_iter X ↔ q ∈ X.
Proof. unfold int_set_iter. by rewrite merge_sort_Permutation, elem_of_elements. Qed.

Lemma elem_of_char_set_iter (X : gset ascii) c : c ∈ char_set_iter X ↔ c ∈ X.
Proof. unfold char_set_iter. by rewrite merge_sort_Permutation, elem_of_elements. Qed.

Lemma NoDup_char_set_iter (X : gset ascii) : NoDup (char_set_iter X).
Proof. unfold char_set_iter. rewrite merge_sort_Permutation. apply NoDup_elements. Qed.

(** ** NFA simulation on a chain *)

Lemma targets_chain regex tr (i : nat) c :
  grown (NFA.transitions (regexToNFA regex)) tr →
  targets tr (Z.of_nat i) c = if decide (regex !! i = Some c) then {[Z.of_nat (S i)]} else ∅.
Proof.
  intros Hg. rewrite (grown_targets _ _ _ _ Hg). unfold targets.
  destruct (regexToNFA_fields regex) as (_ & _ & -> & _).
  unfold chain_row. rewrite decide_True, Nat2Z.id by lia.
  destruct (regex !! i) as [c'|] eqn:E; simpl.
  - case_decide as Hc.
    + injection Hc as ->. rewrite lookup_singleton_eq. simpl. f_equal. lia.
    + rewrite lookup_singleton_ne by congruence. done.
  - done.
Qed.

Lemma prefix_drop_cons (regex : list ascii) (i : nat) c rest :
  (c :: rest) `prefix_of` drop i regex ↔
  regex !! i = Some c ∧ rest `prefix_of` drop (S i) regex.
Proof.
  destruct (regex !! i) as [c'|] eqn:E.
  - rewrite (drop_S _ _ _ E). split.
    + intros [k Hk]. simpl in Hk. injection Hk as -> Hk. split; [done | by exists k].
    + intros [[= ->] [k ->]]. by exists k.
  - rewrite drop_ge by (by apply lookup_ge_None). split.
    + intros [k Hk]. done.
    + intros [? _]. done.
Qed.

Lemma NFA_run_chain regex input : ∀ (i : nat) tr,
  grown (NFA.transitions (regexToNFA regex)) tr →
  (NFA.run tr {[Z.of_nat i]} input).1
  = if decide (input `prefix_of` drop i regex)
    then Some {[Z.of_nat (i + length input)]} else None.
Proof.
  induction input as [|c rest IH]; intros i tr Hg; cbn [NFA.run length].
  - rewrite decide_True by apply prefix_nil. by rewrite Nat.add_0_r.
  - rewrite int_set_iter_singleton.
    destruct (foldl_collect c [Z.of_nat i] ∅ tr) as (tr' & -> & Hg').
    cbn [fmap list_fmap union_list foldr].
    rewrite (left_id_L ∅ (∪)), (right_id_L ∅ (∪)), (targets_chain regex) by done.
    destruct (decide (regex !! i = Some c)) as [Hi|Hi].
    + rewrite decide_False by set_solver.
      rewrite IH by (by eapply grown_trans).
      replace (S i + length rest)%nat with (i + S (length rest))%nat by lia.
      apply decide_ext. rewrite prefix_drop_cons. naive_solver.
    + rewrite decide_True by done. cbn [fst].
      rewrite decide_False; [done|]. rewrite prefix_drop_cons. naive_solver.
Qed.

Lemma prefix_same_length {A} (l k : list A) :
  l `prefix_of` k ∧ length l = length k ↔ l = k.
Proof.
  split; [|intros ->; done].
  intros [[r ->] Hlen]. rewrite length_app in Hlen.
  destruct r; [by rewrite app_nil_r | simpl in Hlen; lia].
Qed.

(** The chain NFA accepts its own pattern and nothing else, also after
    calls that have grown its table. *)
Lemma NFA_simulate_chain regex nfa input :
  NFA_grown (regexToNFA regex) nfa →
  (NFA.simulate nfa input).1 = bool_decide (input = regex).
Proof.
  intros (_ & _ & Hg & Hs & Hf). unfold NFA.simulate.
  pose proof (NFA_run_chain regex input 0 (NFA.transitions nfa) Hg) as Hrun.
  destruct (regexToNFA_fields regex) as (_ & _ & _ & Hs0 & Hf0).
  rewrite Hs, Hs0, Hf, Hf0.
  change (Z.of_nat 0) with 0 in Hrun.
  destruct (NFA.run _ _ _) as [r tr']. simpl in *. subst r.
  rewrite drop_0. case_decide as Hp; simpl.
  - rewrite int_set_iter_singleton. simpl. rewrite orb_false_r.
    apply bool_decide_ext. rewrite elem_of_singleton, <-prefix_same_length. 
    split; [intros ?; split; [done|lia] | intros [_ ?]; lia].
  - symmetry. apply bool_decide_eq_false. intros ->. by apply Hp.
Qed.

Lemma NFA_grown_refl nfa : NFA_grown nfa nfa.
Proof. repeat split. apply grown_refl. Qed.

(** ** DFA simulation as a walk *)

Lemma dfa_walk_grown tr tr' input :
  grown tr tr' → ∀ q, dfa_walk tr' q input = dfa_walk tr q input.
Proof.
  intros Hg. induction input as [|c rest IH]; intros q; simpl; [done|].
  unfold dfa_next. rewrite (grown_entry tr tr') by done.
  destruct (tr !! q ≫= (.!! c)); [apply IH | done].
Qed.

Lemma DFA_run_walk input : ∀ tr q,
  (DFA.run tr q input).1 = dfa_walk tr q input ∧ grown tr (DFA.run tr q input).2.
Proof.
  induction input as [|c rest IH]; intros tr q; cbn [DFA.run dfa_walk].
  - split; [done | apply grown_refl].
  - pose proof (index_entry tr q c) as He. pose proof (index_grown tr q) as Hg.
    destruct (index ∅ tr q) as [row tr1]. cbn [fst snd] in *.
    unfold dfa_next. rewrite <-He.
    destruct (row !! c) as [to|]; [|done].
    destruct (IH tr1 to) as [-> Hg']. split.
    + by apply dfa_walk_grown.
    + by eapply grown_trans.
Qed.

Lemma DFA_simulate_accepts dfa input :
  (DFA.simulate dfa input).1 = dfa_accepts dfa input.
Proof.
  unfold DFA.simulate, dfa_accepts.
  destruct (DFA_run_walk input (DFA.transitions dfa) (DFA.startState dfa)) as [Hw _].
  destruct (DFA.run _ _ _) as [r tr]. simpl in *. by rewrite Hw.
Qed.

Lemma DFA_simulate_grown dfa input : DFA_grown dfa (DFA.simulate dfa input).2.
Proof.
  unfold DFA.simulate.
  destruct (DFA_run_walk input (DFA.transitions dfa) (DFA.startState dfa)) as [_ Hg].
  destruct (DFA.run _ _ _) as [r tr]. by repeat split.
Qed.

Lemma dfa_walk_app tr q pre post :
  dfa_walk tr q (pre ++ post) = dfa_walk tr q pre ≫= λ q', dfa_walk tr q' post.
Proof.
  revert q. induction pre as [|c pre IH]; intros q; simpl; [done|].
  destruct (dfa_next tr q c); [apply IH | done].
Qed.

(** ** Subset construction on a chain *)

Lemma id_chain_lookup k (j : nat) :
  id_chain k !! ({[Z.of_nat j]} : gset Z)
  = if decide (j ≤ k)%nat then Some (Z.of_nat j) else None.
Proof.
  induction k as [|k IH]; cbn [id_chain].
  - destruct j as [|j].
    + by rewrite lookup_insert_eq.
    + rewrite lookup_insert_ne, lookup_empty; [done|].
      intros Heq. apply (inj singleton) in Heq. lia.
  - destruct (decide (j = S k)) as [->|Hne].
    + rewrite lookup_insert_eq, decide_True; [done | lia].
    + rewrite lookup_insert_ne, IH.
      * apply decide_ext. lia.
      * intros Heq. apply (inj singleton) in Heq. lia.
Qed.

Lemma dfa_chain_table_lookup regex k (i : nat) :
  dfa_chain_table regex k !! Z.of_nat i
  = if decide (i < k)%nat then (λ c, {[c := Z.of_nat (S i)]}) <$> regex !! i
    else None.
Proof.
  induction k as [|k IH]; cbn [dfa_chain_table].
  - by rewrite lookup_empty.
  - destruct (decide (i = k)) as [->|Hne].
    + rewrite decide_True by lia. destruct (regex !! k) eqn:E; cbn.
      * by rewrite lookup_insert_eq.
      * rewrite IH, decide_False; [done | lia].
    + assert (dfa_chain_table regex k !! Z.of_nat i
              = if decide (i < S k)%nat
                then (λ c, {[c := Z.of_nat (S i)]}) <$> regex !! i else None) as Hk.
      { rewrite IH. apply decide_ext. lia. }
      destruct (regex !! k); [|done].
      rewrite lookup_insert_ne by lia. done.
Qed.

Lemma index_present {V} (tr : gmap Z (gmap ascii V)) q row :
  tr !! q = Some row → index ∅ tr q = (row, tr).
Proof. intros E. unfold index. by rewrite E. Qed.

Lemma index_absent {V} (tr : gmap Z (gmap ascii V)) q :
  tr !! q = None → index ∅ tr q = (∅, <[q := ∅]> tr).
Proof. intros E. unfold index. by rewrite E. Qed.

Lemma index_idem {V} (tr : gmap Z (gmap ascii V)) q :
  (index ∅ (index ∅ tr q).2 q).2 = (index ∅ tr q).2.
Proof.
  destruct (tr !! q) as [row|] eqn:E.
  - rewrite (index_present tr q row E). cbn [snd]. by rewrite (index_present tr q row E).
  - rewrite (index_absent tr q E). cbn [snd].
    by rewrite (index_present _ q ∅) by apply lookup_insert_eq.
Qed.

Lemma explore_miss (k cid : Z) σ c :
  targets (c_nfa σ) k c = ∅ →
  explore {[k]} cid σ c
  = mkConv (c_dfa σ) (index ∅ (c_nfa σ) k).2 (c_id σ) (c_q σ) (c_nextId σ).
Proof.
  intros Ht. unfold explore. rewrite int_set_iter_singleton. cbn [foldl].
  rewrite collect_spec, (left_id_L ∅ (∪)), Ht. by rewrite decide_True.
Qed.

Lemma explore_hit (k cid k' : Z) σ c :
  targets (c_nfa σ) k c = {[k']} →
  c_id σ !! ({[k']} : gset Z) = None →
  DFA.transitions (c_dfa σ) !! cid = None →
  explore {[k]} cid σ c
  = mkConv
      (DFA.set_transitions
         (<[cid := {[c := c_nextId σ]}]> (DFA.transitions (c_dfa σ))) (c_dfa σ))
      (index ∅ (c_nfa σ) k).2 (<[{[k']} := c_nextId σ]> (c_id σ))
      (c_q σ ++ [{[k']}]) (c_nextId σ + 1).
Proof.
  intros Ht Hid Hrow. unfold explore. rewrite int_set_iter_singleton. cbn [foldl].
  rewrite collect_spec, (left_id_L ∅ (∪)), Ht.
  rewrite decide_False by (apply non_empty_singleton_L).
  rewrite Hid. rewrite (index_absent _ cid Hrow).
  unfold index at 1. rewrite lookup_insert_eq.
  by rewrite insert_insert_eq, insert_empty.
Qed.

Section chain_step.
Variable regex : list ascii.
Let tr0 := NFA.transitions (regexToNFA regex).

Lemma tr0_lookup q : tr0 !! q = chain_row regex q.
Proof. unfold tr0. by destruct (regexToNFA_fields regex) as (_ & _ & -> & _). Qed.

Lemma tr0_targets (i : nat) c :
  targets tr0 (Z.of_nat i) c
  = if decide (regex !! i = Some c) then {[Z.of_nat (S i)]} else ∅.
Proof. apply targets_chain, grown_refl. Qed.

Lemma tr0_index (k : nat) c0 :
  regex !! k = Some c0 → (index ∅ tr0 (Z.of_nat k)).2 = tr0.
Proof.
  intros Hk. destruct (tr0 !! Z.of_nat k) as [row|] eqn:E.
  - by rewrite (index_present _ _ _ E).
  - rewrite tr0_lookup in E. unfold chain_row in E.
    rewrite decide_True, Nat2Z.id, Hk in E by lia. done.
Qed.

(** Symbols other than the one leaving [k] change nothing. *)
Lemma explore_fold_miss (k : nat) c0 cs : ∀ σ,
  regex !! k = Some c0 → c0 ∉ cs → c_nfa σ = tr0 →
  foldl (explore {[Z.of_nat k]} (Z.of_nat k)) σ cs = σ.
Proof.
  induction cs as [|c cs IH]; intros σ Hk Hnin Hσ; [done|].
  cbn [foldl]. apply not_elem_of_cons in Hnin as [Hne Hnin].
  assert (explore {[Z.of_nat k]} (Z.of_nat k) σ c = σ) as ->; [|by apply IH].
  rewrite explore_miss.
  - rewrite Hσ, (tr0_index k c0 Hk), <-Hσ. by destruct σ.
  - rewrite Hσ, tr0_targets, decide_False; [done | congruence].
Qed.

(** The one symbol leaving [k] discovers the subset [{k+1}]. *)
Lemma explore_fold_hit (k : nat) c0 cs : ∀ σ,
  regex !! k = Some c0 → NoDup cs → c0 ∈ cs → c_nfa σ = tr0 →
  c_id σ !! ({[Z.of_nat (S k)]} : gset Z) = None →
  DFA.transitions (c_dfa σ) !! Z.of_nat k = None →
  foldl (explore {[Z.of_nat k]} (Z.of_nat k)) σ cs
  = mkConv
      (DFA.set_transitions
         (<[Z.of_nat k := {[c0 := c_nextId σ]}]> (DFA.transitions (c_dfa σ)))
         (c_dfa σ))
      tr0 (<[{[Z.of_nat (S k)]} := c_nextId σ]> (c_id σ))
      (c_q σ ++ [{[Z.of_nat (S k)]}]) (c_nextId σ + 1).
Proof.
  induction cs as [|c cs IH]; intros σ Hk Hnd Hin Hσ Hid Hrow.
  { by apply elem_of_nil in Hin. }
  apply NoDup_cons in Hnd as [Hnin Hnd]. cbn [foldl].
  destruct (decide (c = c0)) as [->|Hne].
  - rewrite (explore_hit _ _ (Z.of_nat (S k))); [| |done..].
    + rewrite Hσ, (tr0_index k c0 Hk).
      by rewrite (explore_fold_miss k c0).
    + rewrite Hσ, tr0_targets, decide_True; done.
  - assert (explore {[Z.of_nat k]} (Z.of_nat k) σ c = σ) as ->.
    { apply (explore_fold_miss k c0 [c] σ); [done | set_solver | done]. }
    apply IH; [done..| |done|done|done]. set_solver.
Qed.

(** From the last state no symbol leads anywhere; the lookups leave an
    empty row behind. *)
Lemma explore_fold_dead (k : Z) cs : ∀ σ,
  (∀ c, targets (c_nfa σ) k c = ∅) →
  foldl (explore {[k]} k) σ cs
  = mkConv (c_dfa σ)
      (match cs with [] => c_nfa σ | _ => (index ∅ (c_nfa σ) k).2 end)
      (c_id σ) (c_q σ) (c_nextId σ).
Proof.
  induction cs as [|c cs IH]; intros σ Hdead; [by destruct σ|].
  cbn [foldl]. rewrite explore_miss by done.
  rewrite IH; cbn [c_dfa c_nfa c_id c_q c_nextId].
  - f_equal. destruct cs; [done | apply index_idem].
  - intros c'. rewrite (grown_targets (c_nfa σ)) by apply index_grown. apply Hdead.
Qed.
End chain_step.

Lemma states_upto_succ (k : nat) :
  ({[Z.of_nat k]} ∪ list_to_set (seqZ 0 (Z.of_nat k)) : gset Z)
  = list_to_set (seqZ 0 (Z.of_nat (S k))).
Proof.
  apply set_eq. intros x.
  rewrite elem_of_union, !elem_of_list_to_set, !elem_of_seqZ, elem_of_singleton. lia.
Qed.

Lemma chain_body_mid regex (k : nat) c0 :
  regex !! k = Some c0 →
  nfaToDFA_body {[Z.of_nat (length regex)]} (chain_mid regex k)
  = Next (chain_mid regex (S k)).
Proof.
  intros Hk. pose proof (lookup_lt_Some _ _ _ Hk) as Hlt.
  unfold nfaToDFA_body, chain_mid. cbn [c_q c_id c_dfa c_nfa c_nextId].
  unfold index at 1. rewrite (id_chain_lookup k k), decide_True by lia.
  cbv beta iota zeta. cbn [DFA.alphabet].
  rewrite (explore_fold_hit regex k c0); cbn [c_q c_id c_dfa c_nfa c_nextId DFA.transitions].
  - rewrite int_set_iter_singleton. cbn [foldl]. unfold mark_final.
    rewrite decide_False by (rewrite elem_of_singleton; lia).
    cbn. rewrite Hk, states_upto_succ.
    replace (Z.of_nat k + 1) with (Z.of_nat (S k)) by lia. done.
  - done.
  - apply NoDup_char_set_iter.
  - rewrite elem_of_char_set_iter, elem_of_list_to_set. by eapply list_elem_of_lookup_2.
  - done.
  - rewrite (id_chain_lookup k (S k)), decide_False; [done | lia].
  - rewrite dfa_chain_table_lookup, decide_False; [done | lia].
Qed.

Lemma char_set_iter_nil (regex : list ascii) :
  char_set_iter (list_to_set regex) = [] ↔ regex = [].
Proof.
  split.
  - intros Hnil. destruct regex as [|c regex]; [done|].
    assert (c ∈ char_set_iter (list_to_set (c :: regex))) as Hin.
    { rewrite elem_of_char_set_iter, elem_of_list_to_set. by left. }
    rewrite Hnil in Hin. by apply elem_of_nil in Hin.
  - intros ->. unfold char_set_iter. simpl. by rewrite elements_empty.
Qed.

Lemma chain_body_last regex :
  nfaToDFA_body {[Z.of_nat (length regex)]} (chain_mid regex (length regex))
  = Next (chain_end regex).
Proof.
  assert (NFA.transitions (regexToNFA regex) !! Z.of_nat (length regex) = None) as Hrow.
  { rewrite tr0_lookup. apply chain_row_last. }
  unfold nfaToDFA_body, chain_mid. cbn [c_q c_id c_dfa c_nfa c_nextId].
  unfold index at 1.
  rewrite (id_chain_lookup (length regex) (length regex)), decide_True by lia.
  cbv beta iota zeta. cbn [DFA.alphabet].
  rewrite explore_fold_dead; cbn [c_q c_id c_dfa c_nfa c_nextId].
  - rewrite int_set_iter_singleton. cbn [foldl]. unfold mark_final.
    rewrite decide_True by (by apply elem_of_singleton).
    cbn [DFA.states DFA.alphabet DFA.transitions DFA.startState DFA.finalStates].
    unfold chain_end, chain_dfa.
    rewrite states_upto_succ, (right_id_L ∅ (∪)).
    replace (Z.of_nat (length regex) + 1) with (Z.of_nat (S (length regex))) by lia.
    do 2 f_equal. unfold chain_touched.
    destruct (char_set_iter (list_to_set regex)) as [|c cs] eqn:Hcs.
    + apply (proj1 (char_set_iter_nil regex)) in Hcs. by rewrite Hcs.
    + destruct regex as [|c' regex']; [done|].
      by rewrite (index_absent _ _ Hrow).
  - intros c. unfold targets. by rewrite Hrow.
Qed.

Lemma chain_body_end regex :
  nfaToDFA_body {[Z.of_nat (length regex)]} (chain_end regex)
  = Done (chain_end regex).
Proof. done. Qed.

(** A loop whose states follow a known sequence ends after it. *)
Lemma while_loop_trace {S R : Type} (body : S → ctl S R) (s : nat → S) (n : nat) :
  (∀ k, (k < n)%nat → body (s k) = Next (s (Datatypes.S k))) →
  body (s n) = Done (s n) →
  ∀ fuel (j : nat), (j ≤ n)%nat → (n - j < fuel)%nat →
    while_loop fuel body (s j) = Some (inl (s n)).
Proof.
  intros Hstep Hend. induction fuel as [|fuel IH]; intros j Hj Hfuel; [lia|].
  cbn [while_loop]. destruct (decide (j = n)) as [->|Hne].
  - by rewrite Hend.
  - rewrite Hstep by lia. apply IH; lia.
Qed.

Lemma nfaToDFA_init_chain regex :
  nfaToDFA_init (regexToNFA regex) = chain_mid regex 0.
Proof.
  unfold nfaToDFA_init, chain_mid.
  destruct (regexToNFA_fields regex) as (_ & -> & _ & -> & _). done.
Qed.

(** Subset construction on the chain of [regex] stops after
    [length regex + 1] turns of its queue loop, and returns [chain_dfa]. *)
Lemma nfaToDFA_chain regex (fuel : nat) :
  (length regex + 1 < fuel)%nat →
  nfaToDFA fuel (regexToNFA regex)
  = Some (chain_dfa regex,
          NFA.set_transitions (chain_touched regex) (regexToNFA regex)).
Proof.
  intros Hfuel. unfold nfaToDFA.
  set (L := length regex).
  set (s := λ k : nat, if decide (k ≤ L)%nat then chain_mid regex k else chain_end regex).
  destruct (regexToNFA_fields regex) as (_ & _ & _ & _ & ->).
  rewrite nfaToDFA_init_chain.
  rewrite (while_loop_trace _ s (S L) ) with (j := 0%nat); [| | |lia|lia].
  - unfold s. rewrite decide_False by lia. done.
  - intros k Hk. unfold s. rewrite decide_True by lia.
    destruct (decide (k = L)) as [->|Hne].
    + rewrite decide_False by lia. apply chain_body_last.
    + rewrite decide_True by lia.
      destruct (lookup_lt_is_Some_2 regex k) as [c0 Hc0]; [fold L; lia|].
      by apply (chain_body_mid regex k c0).
  - unfold s. rewrite decide_False by lia. apply chain_body_end.
Qed.

(** ** DFA simulation on the chain DFA *)

Lemma dfa_next_chain regex (i : nat) c :
  dfa_next (dfa_chain_table regex (length regex)) (Z.of_nat i) c
  = if decide (regex !! i = Some c) then Some (Z.of_nat (S i)) else None.
Proof.
  unfold dfa_next. rewrite dfa_chain_table_lookup.
  destruct (regex !! i) as [c'|] eqn:E.
  - rewrite decide_True by (by eapply lookup_lt_Some). cbn [fmap option_fmap option_map mbind option_bind].
    case_decide as Hc.
    + injection Hc as ->. by rewrite lookup_singleton_eq.
    + rewrite lookup_singleton_ne by congruence. done.
  - rewrite decide_False by (apply lookup_ge_None in E; lia).
    by rewrite decide_False.
Qed.

Lemma dfa_walk_chain regex input : ∀ i : nat,
  dfa_walk (dfa_chain_table regex (length regex)) (Z.of_nat i) input
  = if decide (input `prefix_of` drop i regex)
    then Some (Z.of_nat (i + length input)) else None.
Proof.
  induction input as [|c rest IH]; intros i; cbn [dfa_walk length].
  - rewrite decide_True by apply prefix_nil. by rewrite Nat.add_0_r.
  - rewrite dfa_next_chain. destruct (decide (regex !! i = Some c)) as [Hi|Hi].
    + rewrite IH.
      replace (S i + length rest)%nat with (i + S (length rest))%nat by lia.
      apply decide_ext. rewrite prefix_drop_cons. naive_solver.
    + rewrite decide_False; [done|]. rewrite prefix_drop_cons. naive_solver.
Qed.

Lemma DFA_simulate_chain regex input :
  (DFA.simulate (chain_dfa regex) input).1 = bool_decide (input = regex).
Proof.
  rewrite DFA_simulate_accepts. unfold dfa_accepts, chain_dfa.
  cbn [DFA.transitions DFA.startState DFA.finalStates].
  change 0 with (Z.of_nat 0).
  rewrite (dfa_walk_chain regex input 0), drop_0.
  case_decide as Hp.
  - apply bool_decide_ext. rewrite elem_of_singleton, <-prefix_same_length.
    split; [intros ?; split; [done|lia] | intros [_ ?]; lia].
  - symmetry. apply bool_decide_eq_false. intros ->. by apply Hp.
Qed.

Lemma chain_touched_grown regex :
  grown (NFA.transitions (regexToNFA regex)) (chain_touched regex).
Proof.
  unfold chain_touched. destruct regex as [|c regex]; [apply grown_refl|].
  intros q. destruct (decide (q = Z.of_nat (length (c :: regex)))) as [->|Hne].
  - right. rewrite lookup_insert_eq. split; [|done].
    rewrite tr0_lookup. apply chain_row_last.
  - left. by rewrite lookup_insert_ne.
Qed.

Lemma edge_grown tr tr' q c q' : grown tr tr' → edge tr' q c q' ↔ edge tr q c q'.
Proof.
  intros Hg. unfold edge. destruct (Hg q) as [->|[-> ->]]; [done|].
  split; intros (row & tgt & Hrow & Hc & _); [|done].
  injection Hrow as <-. by rewrite lookup_empty in Hc.
Qed.

Example dp_fill_abcde_bcd :
  dp_fill (str "abcde") (str "bcd")
  = [[0; 1; 2; 3]; [0; 1; 2; 3]; [0; 0; 1; 2]; [0; 1; 0; 1]; [0; 1; 1; 0]; [0; 1; 2; 1]].
Proof. reflexivity. Qed.

Example approximateMatch_cases :
  approximateMatch (str "abcde") (str "bcd") 0 = true
  ∧ approximateMatch (str "abcde") (str "xcd") 1 = true
  ∧ approximateMatch (str "abcde") (str "xyz") 1 = false.
Proof. by vm_compute. Qed.

Example PDA_cases :
  PDA.simulate [] = Some true
  ∧ PDA.simulate (str "aabb") = Some true
  ∧ PDA.simulate (str "aaab") = Some false
  ∧ PDA.simulate (str "abab") = Some false
  ∧ PDA.simulate (str "aabbb") = Some false.
Proof. by vm_compute. Qed.

(** ** The filled table is the table of the specification *)

Lemma table_shape_write n m dp i j v :
  table_shape n m dp → table_shape n m (dp_write dp i j v).
Proof.
  intros [Hn Hm]. unfold dp_write. split.
  - by rewrite length_alter.
  - apply Forall_alter; [done|]. intros row _ Hrow. by rewrite length_insert.
Qed.

Lemma dp_read_write_eq n m dp i j v :
  table_shape n m dp → (i < n)%nat → (j < m)%nat →
  dp_read (dp_write dp i j v) i j = v.
Proof.
  intros [Hn Hm] Hi Hj. unfold dp_read, dp_write.
  rewrite list_lookup_alter_eq.
  destruct (lookup_lt_is_Some_2 dp i) as [row Hrow]; [lia|].
  rewrite Hrow. cbn.
  rewrite list_lookup_insert_eq; [done|].
  rewrite Forall_lookup in Hm. rewrite (Hm _ _ Hrow). done.
Qed.

Lemma dp_read_write_ne dp i j v i' j' :
  (i', j') ≠ (i, j) → dp_read (dp_write dp i j v) i' j' = dp_read dp i' j'.
Proof.
  intros Hne. unfold dp_read, dp_write.
  destruct (decide (i' = i)) as [->|Hi].
  - rewrite list_lookup_alter_eq. destruct (dp !! i) as [row|]; [|done]. cbn.
    rewrite list_lookup_insert_ne; [done | congruence].
  - by rewrite list_lookup_alter_ne.
Qed.

(** Invariant rule for [for (k = start; k < start + len; k++)]. *)
Lemma foldl_seq_inv {A} (I : nat → A → Prop) (f : A → nat → A) len :
  ∀ start a,
    I start a →
    (∀ k a, (start ≤ k < start + len)%nat → I k a → I (S k) (f a k)) →
    I (start + len)%nat (foldl f a (seq start len)).
Proof.
  induction len as [|len IH]; intros start a Ha Hstep; cbn [seq foldl].
  - by rewrite Nat.add_0_r.
  - replace (start + S len)%nat with (S start + len)%nat by lia.
    apply IH.
    + apply Hstep; [lia | done].
    + intros k a' Hk. apply Hstep. lia.
Qed.

Lemma dp_spec_row0 text pattern j : dp_spec text pattern 0 j = Z.of_nat j.
Proof. done. Qed.

Lemma dp_spec_col0 text pattern i : dp_spec text pattern i 0 = 0.
Proof. by destruct i. Qed.

Lemma dp_spec_step text pattern i j :
  dp_spec text pattern (S i) (S j)
  = if decide (text !! i = pattern !! j) then dp_spec text pattern i j
    else 1 + Z.min (dp_spec text pattern i j)
               (Z.min (dp_spec text pattern (S i) j) (dp_spec text pattern i (S j))).
Proof. done. Qed.

Section fill.
Variables text pattern : list ascii.

Lemma fill_row0 :
  rows_done text pattern 1
    (foldl (λ dp j, dp_write dp 0 j (Z.of_nat j))
       (replicate (length text + 1) (replicate (length pattern + 1) 0))
       (seq 0 (length pattern + 1))).
Proof.
  pose (I := λ (k : nat) (dp : list (list Z)),
          table_shape (length text + 1) (length pattern + 1) dp
          ∧ ∀ j, (j < k)%nat → dp_read dp 0 j = Z.of_nat j).
  assert (I (0 + (length pattern + 1))%nat
            (foldl (λ dp j, dp_write dp 0 j (Z.of_nat j))
               (replicate (length text + 1) (replicate (length pattern + 1) 0))
               (seq 0 (length pattern + 1)))) as [Hs Hr].
  { apply (foldl_seq_inv I).
    - split; [|intros j Hj; lia]. split.
      + by rewrite length_replicate.
      + apply Forall_replicate. by rewrite length_replicate.
    - intros k dp Hk [Hs Hr]. split; [by apply table_shape_write|].
      intros j Hj. destruct (decide (j = k)) as [->|Hne].
      + rewrite (dp_read_write_eq _ _ _ _ _ _ Hs); [done | lia | lia].
      + rewrite dp_read_write_ne by congruence. apply Hr. lia. }
  split; [done|]. intros i' j Hi Hj.
  assert (i' = 0%nat) as -> by lia. rewrite dp_spec_row0. apply Hr. lia.
Qed.

Lemma fill_cell i j dp :
  (1 ≤ i ≤ length text)%nat → (1 ≤ j ≤ length pattern)%nat →
  cells_done text pattern i j dp →
  cells_done text pattern i (S j) (dp_cell text pattern i dp j).
Proof.
  intros Hi Hj [[Hs Hrows] Hcells].
  destruct i as [|i]; [lia|]. destruct j as [|j]; [lia|].
  assert (∀ v, v = dp_spec text pattern (S i) (S j) →
               cells_done text pattern (S i) (S (S j))
                 (dp_write dp (S i) (S j) v)) as Hw.
  { intros v ->. split; [split|].
    - by apply table_shape_write.
    - intros i' j' Hi' Hj'. rewrite dp_read_write_ne by (intros [=]; lia).
      by apply Hrows.
    - intros j' Hj'. destruct (decide (j' = S j)) as [->|Hne].
      + rewrite (dp_read_write_eq _ _ _ _ _ _ Hs); [done | lia | lia].
      + rewrite dp_read_write_ne by congruence. apply Hcells. lia. }
  unfold dp_cell. cbn [Nat.sub]. rewrite !Nat.sub_0_r.
  rewrite dp_spec_step in Hw.
  rewrite (Hrows i j), (Hrows i (S j)), (Hcells j) by lia.
  case_decide; apply Hw; [done|].
  f_equal. lia.
Qed.

Lemma fill_row i dp :
  (1 ≤ i ≤ length text)%nat →
  rows_done text pattern i dp →
  rows_done text pattern (S i) (dp_row text pattern dp i).
Proof.
  intros Hi [Hs Hrows].
  assert (cells_done text pattern i (1 + length pattern) (dp_row text pattern dp i))
    as [[Hs' Hrows'] Hcells'].
  { unfold dp_row. apply (foldl_seq_inv (cells_done text pattern i)).
    - split; [split|].
      + by apply table_shape_write.
      + intros i' j Hi' Hj. rewrite dp_read_write_ne by (intros [=]; lia).
        by apply Hrows.
      + intros j' Hj'. assert (j' = 0%nat) as -> by lia.
        rewrite (dp_read_write_eq _ _ _ _ _ _ Hs), dp_spec_col0; [done | lia | lia].
    - intros k dp' Hk Hdone. apply fill_cell; [done | lia | done]. }
  split; [done|]. intros i' j Hi' Hj.
  destruct (decide (i' = i)) as [->|Hne].
  - apply Hcells'. lia.
  - apply Hrows'; lia.
Qed.

Lemma fill_all : rows_done text pattern (1 + length text) (dp_fill text pattern).
Proof.
  unfold dp_fill. cbv zeta. apply (foldl_seq_inv (rows_done text pattern)).
  - apply fill_row0.
  - intros k dp Hk Hdone. apply fill_row; [lia | done].
Qed.
End fill.

Lemma dp_fill_spec text pattern i j :
  (i ≤ length text)%nat → (j ≤ length pattern)%nat →
  dp_read (dp_fill text pattern) i j = dp_spec text pattern i j.
Proof.
  intros Hi Hj. destruct (fill_all text pattern) as [_ Hrows]. apply Hrows; lia.
Qed.

Lemma approximateMatch_spec text pattern maxErrors :
  approximateMatch text pattern maxErrors = true ↔
  ∃ i : nat, (length pattern ≤ i ≤ length text)%nat
             ∧ dp_spec text pattern i (length pattern) ≤ maxErrors.
Proof.
  unfold approximateMatch. rewrite existsb_exists. split.
  - intros (i & Hin & Hle). apply in_seq in Hin.
    apply bool_decide_eq_true in Hle.
    rewrite dp_fill_spec in Hle by lia. exists i. split; [lia | done].
  - intros (i & Hi & Hle). exists i. split.
    + apply in_seq. lia.
    + apply bool_decide_eq_true. rewrite dp_fill_spec by lia. done.
Qed.

(** ** Zero cost is an exact occurrence *)

Lemma dp_spec_nonneg text pattern i : ∀ j, 0 ≤ dp_spec text pattern i j.
Proof.
  induction i as [|i IHi]; intros j; [rewrite dp_spec_row0; lia|].
  induction j as [|j IHj]; [by rewrite dp_spec_col0|].
  rewrite dp_spec_step. case_decide; [apply IHi|].
  pose proof (IHi j). pose proof (IHi (S j)). lia.
Qed.

Lemma suffix_take_step (text pattern : list ascii) (i j : nat) :
  (i < length text)%nat → (j < length pattern)%nat →
  take (S j) pattern `suffix_of` take (S i) text ↔
  text !! i = pattern !! j ∧ take j pattern `suffix_of` take i text.
Proof.
  intros Hi Hj.
  destruct (lookup_lt_is_Some_2 text i Hi) as [a Ha].
  destruct (lookup_lt_is_Some_2 pattern j Hj) as [b Hb].
  rewrite (take_S_r _ _ _ Ha), (take_S_r _ _ _ Hb), Ha, Hb. split.
  - intros Hsuf. split.
    + f_equal. symmetry. by eapply suffix_snoc_inv_1.
    + by eapply suffix_snoc_inv_2.
  - intros [[= ->] Hsuf]. by apply suffix_snoc.
Qed.

Lemma dp_spec_zero text pattern i : ∀ j,
  (i ≤ length text)%nat → (j ≤ length pattern)%nat →
  dp_spec text pattern i j = 0 ↔ take j pattern `suffix_of` take i text.
Proof.
  induction i as [|i IHi]; intros j Hi Hj.
  - rewrite dp_spec_row0. destruct j as [|j].
    + split; [intros _; apply suffix_nil | done].
    + split; [lia|]. intros Hsuf. apply suffix_length in Hsuf.
      rewrite !length_take in Hsuf. lia.
  - induction j as [|j IHj].
    + rewrite dp_spec_col0. split; [intros _; apply suffix_nil | done].
    + rewrite dp_spec_step, suffix_take_step by lia.
      case_decide as Hc.
      * rewrite IHi by lia. naive_solver.
      * pose proof (dp_spec_nonneg text pattern i j).
        pose proof (dp_spec_nonneg text pattern i (S j)).
        pose proof (dp_spec_nonneg text pattern (S i) j).
        split; [lia | naive_solver].
Qed.

Lemma occurrence_suffix (text pattern : list ascii) :
  (∃ pre post, text = pre ++ pattern ++ post) ↔
  ∃ i : nat, (length pattern ≤ i ≤ length text)%nat
             ∧ pattern `suffix_of` take i text.
Proof.
  split.
  - intros (pre & post & ->). exists (length (pre ++ pattern)). split.
    + rewrite !length_app. lia.
    + rewrite app_assoc, take_app_length. by apply suffix_app_r.
  - intros (i & Hi & [pre Hpre]). exists pre, (drop i text).
    by rewrite app_assoc, <-Hpre, take_drop.
Qed.

(** ** The two phases of the PDA *)

Lemma scan_stop (c : ascii) (pre rest : list ascii) :
  head rest ≠ Some c →
  bool_decide (length pre < length (pre ++ rest))%nat
  && bool_decide ((pre ++ rest) !! length pre = Some c) = false.
Proof.
  intros Hhd. destruct rest as [|x rest].
  - rewrite app_nil_r.
    rewrite (bool_decide_eq_false_2 (length pre < length pre)%nat); [done | lia].
  - rewrite list_lookup_middle by done.
    rewrite (bool_decide_eq_false_2 (Some x = Some c)) by done.
    apply andb_false_r.
Qed.

Lemma scan_go (c : ascii) (pre rest : list ascii) :
  bool_decide (length pre < length (pre ++ c :: rest))%nat
  && bool_decide ((pre ++ c :: rest) !! length pre = Some c) = true.
Proof.
  rewrite list_lookup_middle by done.
  rewrite (bool_decide_eq_true_2 (Some c = Some c)) by done.
  rewrite bool_decide_eq_true_2; [done|].
  rewrite length_app. simpl. lia.
Qed.

Lemma push_run (k : nat) : ∀ (pre rest : list ascii) (s fuel : nat),
  head rest ≠ Some "a"%char → (k < fuel)%nat →
  while_loop fuel (PDA.push_phase (pre ++ replicate k "a"%char ++ rest))
    (replicate s "A"%char, length pre)
  = Some (inl (replicate (k + s) "A"%char, (length pre + k)%nat)).
Proof.
  induction k as [|k IH]; intros pre rest s fuel Hhd Hfuel;
    (destruct fuel as [|fuel]; [lia|]); cbn [while_loop PDA.push_phase replicate app].
  - rewrite scan_stop by done. by rewrite Nat.add_0_r.
  - rewrite scan_go.
    replace (pre ++ "a"%char :: replicate k "a"%char ++ rest)
      with ((pre ++ ["a"%char]) ++ replicate k "a"%char ++ rest)
      by (by rewrite <-app_assoc).
    replace (S (length pre)) with (length (pre ++ ["a"%char]))
      by (rewrite length_app; simpl; lia).
    change ("A"%char :: replicate s "A"%char) with (replicate (S s) "A"%char).
    rewrite IH by (done || lia).
    rewrite length_app. cbn [length].
    replace (k + S s)%nat with (S k + s)%nat by lia.
    replace (length pre + 1 + k)%nat with (length pre + S k)%nat by lia. done.
Qed.

Lemma pop_run (j : nat) : ∀ (pre rest : list ascii) (s fuel : nat),
  head rest ≠ Some "b"%char → (j < fuel)%nat →
  while_loop fuel (PDA.pop_phase (pre ++ replicate j "b"%char ++ rest))
    (replicate s "A"%char, length pre)
  = Some (if decide (j ≤ s)%nat
          then inl (replicate (s - j) "A"%char, (length pre + j)%nat)
          else inr false).
Proof.
  induction j as [|j IH]; intros pre rest s fuel Hhd Hfuel;
    (destruct fuel as [|fuel]; [lia|]); cbn [while_loop PDA.pop_phase replicate app].
  - rewrite scan_stop by done. rewrite decide_True by lia.
    by rewrite Nat.add_0_r, Nat.sub_0_r.
  - rewrite scan_go. destruct s as [|s]; cbn [replicate].
    + rewrite decide_False; [done | lia].
    + replace (pre ++ "b"%char :: replicate j "b"%char ++ rest)
        with ((pre ++ ["b"%char]) ++ replicate j "b"%char ++ rest)
        by (by rewrite <-app_assoc).
      replace (S (length pre)) with (length (pre ++ ["b"%char]))
        by (rewrite length_app; simpl; lia).
      rewrite IH by (done || lia).
      rewrite length_app. cbn [length].
      replace (length pre + 1 + j)%nat with (length pre + S j)%nat by lia.
      destruct (decide (j ≤ s)%nat).
      * rewrite decide_True by lia. done.
      * rewrite decide_False; [done | lia].
Qed.

(** Every string is a run of [c]s followed by something that does not
    start with [c]. *)
Lemma span_char (c : ascii) (l : list ascii) :
  ∃ k rest, l = replicate k c ++ rest ∧ head rest ≠ Some c.
Proof.
  induction l as [|x l (k & rest & -> & Hhd)].
  - by exists 0%nat, [].
  - destruct (decide (x = c)) as [->|Hne].
    + by exists (S k), rest.
    + exists 0%nat, (x :: replicate k c ++ rest). split; [done|].
      simpl. congruence.
Qed.

(** The result on an input split into its run of a's, the run of b's
    after it, and what is left. *)
Lemma PDA_simulate_split (k j : nat) (rest : list ascii) :
  head rest ≠ Some "b"%char →
  (j = 0%nat → head rest ≠ Some "a"%char) →
  PDA.simulate (replicate k "a"%char ++ replicate j "b"%char ++ rest)
  = Some (bool_decide (j = k ∧ rest = [])).
Proof.
  intros Hb Ha. unfold PDA.simulate.
  set (input := replicate k "a"%char ++ replicate j "b"%char ++ rest).
  assert (length input = (k + j + length rest)%nat) as Hlen.
  { unfold input. rewrite !length_app, !length_replicate. lia. }
  pose proof (push_run k [] (replicate j "b"%char ++ rest) 0 (S (length input))) as Hpush.
  cbn [app length replicate] in Hpush. fold input in Hpush.
  rewrite Hpush; [|destruct j; [by apply Ha | done] | lia].
  pose proof (pop_run j (replicate k "a"%char) rest (k + 0) (S (length input)) Hb) as Hpop.
  rewrite length_replicate in Hpop. fold input in Hpop.
  rewrite Nat.add_0_l, Hpop by lia.
  case_decide as Hjk.
  - f_equal. destruct (decide (j = k ∧ rest = [])) as [[-> ->]|Hn].
    + rewrite (bool_decide_eq_true_2 (k = k ∧ _)) by (by split).
      rewrite Nat.add_0_r, Nat.sub_diag. simpl in Hlen.
      by rewrite !bool_decide_eq_true_2 by (done || lia).
    + rewrite (bool_decide_eq_false_2 (j = k ∧ rest = [])) by done.
      apply andb_false_iff.
      destruct (decide (j = k)) as [->|Hne].
      * left. apply bool_decide_eq_false_2.
        destruct rest; [naive_solver | simpl in Hlen; lia].
      * right. apply bool_decide_eq_false_2.
        assert (k + 0 - j = S (k - j - 1))%nat as -> by lia. done.
  - f_equal. symmetry. apply bool_decide_eq_false_2. lia.
Qed.

(** * The claims *)

(** C1. For every literal pattern [P] and every test string [S], the NFA
    built from [P] and the DFA that subset construction derives from it
    give the same verdict on [S].  The conversion stops within
    [length P + 2] turns of its loop; the verdict of the NFA is the same
    before and after the conversion has gone through its table. *)
Theorem nfa_dfa_equivalence (P S : list ascii) (fuel : nat) :
  (length P + 1 < fuel)%nat →
  ∃ dfa nfa',
    nfaToDFA fuel (regexToNFA P) = Some (dfa, nfa')
    ∧ (NFA.simulate (regexToNFA P) S).1 = (DFA.simulate dfa S).1
    ∧ (NFA.simulate nfa' S).1 = (DFA.simulate dfa S).1.
Proof.
  intros Hfuel. eexists _, _. split; [by apply nfaToDFA_chain|].
  rewrite DFA_simulate_chain. split.
  - apply NFA_simulate_chain, NFA_grown_refl.
  - apply NFA_simulate_chain. repeat split. apply chain_touched_grown.
Qed.

Lemma nfa_dfa_equivalence_witness :
  (length (str "ab") + 1 < 4)%nat
  ∧ ∃ dfa nfa',
      nfaToDFA 4 (regexToNFA (str "ab")) = Some (dfa, nfa')
      ∧ (NFA.simulate (regexToNFA (str "ab")) (str "abc")).1
        = (DFA.simulate dfa (str "abc")).1
      ∧ (NFA.simulate nfa' (str "abc")).1 = (DFA.simulate dfa (str "abc")).1.
Proof.
  split; [simpl; lia|].
  apply (nfa_dfa_equivalence (str "ab") (str "abc") 4). simpl; lia.
Defined.

(** C2. For a pattern of length [L], [regexToNFA] yields the states
    [0..L] ([L + 1] of them), start state [0], the single final state
    [L], for each position [i] one edge, from [i] to [i + 1] on the [i]-th
    symbol, and no other edge, and as alphabet the symbols of the pattern;
    for the empty pattern a single state that is start and final. *)
Theorem regexToNFA_chain (regex : list ascii) :
  let nfa := regexToNFA regex in
  let L := Z.of_nat (length regex) in
  (∀ q, q ∈ NFA.states nfa ↔ 0 ≤ q ≤ L)
  ∧ size (NFA.states nfa) = S (length regex)
  ∧ NFA.startState nfa = 0
  ∧ NFA.finalStates nfa = {[L]}
  ∧ (∀ q c q', edge (NFA.transitions nfa) q c q' ↔
               ∃ i : nat, regex !! i = Some c ∧ q = Z.of_nat i ∧ q' = Z.of_nat i + 1)
  ∧ (∀ q, NFA.transitions nfa !! q = chain_row regex q)
  ∧ (∀ c, c ∈ NFA.alphabet nfa ↔ c ∈ regex)
  ∧ regexToNFA [] = NFA.mk {[0]} ∅ ∅ 0 {[0]}.
Proof.
  intros nfa L. destruct (regexToNFA_fields regex) as (Hst & Hal & Htr & Hs & Hf).
  fold nfa in Hst, Hal, Htr, Hs, Hf. split_and!.
  - intros q. rewrite Hst, elem_of_list_to_set, elem_of_seqZ. lia.
  - rewrite Hst, size_list_to_set by apply NoDup_seqZ. rewrite length_seqZ. lia.
  - done.
  - done.
  - intros q c q'. unfold edge. setoid_rewrite Htr. unfold chain_row. split.
    + intros (row & tgt & Hrow & Hc & Hq'). case_decide as Hq; [|done].
      destruct (regex !! Z.to_nat q) as [c'|] eqn:E; [|done].
      injection Hrow as <-. apply lookup_singleton_Some in Hc as [<- <-].
      apply elem_of_singleton in Hq'. exists (Z.to_nat q).
      split_and!; [done | lia | lia].
    + intros (i & Hi & -> & ->). rewrite decide_True, Nat2Z.id, Hi by lia.
      eexists _, _. split_and!; [done | apply lookup_singleton_eq | by apply elem_of_singleton].
  - done.
  - intros c. by rewrite Hal, elem_of_list_to_set.
  - apply (f_equal (λ s, NFA.mk {[0]} ∅ ∅ 0 s)). apply (right_id_L ∅ (∪)).
Qed.

(** C6. The DFA derived from the NFA of a literal pattern has as many
    states as that NFA. *)
Theorem state_count_identity (P : list ascii) (fuel : nat) :
  (length P + 1 < fuel)%nat →
  ∃ dfa nfa',
    nfaToDFA fuel (regexToNFA P) = Some (dfa, nfa')
    ∧ size (DFA.states dfa) = size (NFA.states (regexToNFA P))
    ∧ size (DFA.states dfa) = S (length P).
Proof.
  intros Hfuel. eexists _, _. split; [by apply nfaToDFA_chain|].
  destruct (regexToNFA_fields P) as (-> & _). cbn [chain_dfa DFA.states].
  split; [done|].
  rewrite size_list_to_set by apply NoDup_seqZ. rewrite length_seqZ. lia.
Qed.

Lemma state_count_identity_witness :
  (length (str "abca") + 1 < 6)%nat
  ∧ ∃ dfa nfa',
      nfaToDFA 6 (regexToNFA (str "abca")) = Some (dfa, nfa')
      ∧ size (DFA.states dfa) = size (NFA.states (regexToNFA (str "abca")))
      ∧ size (DFA.states dfa) = S (length (str "abca")).
Proof.
  split; [simpl; lia|].
  apply (state_count_identity (str "abca") 6). simpl; lia.
Defined.

(** C9. The NFA built from "ab" accepts "ab" and no other string, so it
    rejects "a", "abc", "ba" and the empty string; the NFA built from the empty pattern
    accepts the empty string only. *)
Theorem chain_acceptance :
  (∀ S, (NFA.simulate (regexToNFA (str "ab")) S).1 = true ↔ S = str "ab")
  ∧ (NFA.simulate (regexToNFA (str "ab")) (str "ab")).1 = true
  ∧ (NFA.simulate (regexToNFA (str "ab")) (str "a")).1 = false
  ∧ (NFA.simulate (regexToNFA (str "ab")) (str "abc")).1 = false
  ∧ (NFA.simulate (regexToNFA (str "ab")) (str "ba")).1 = false
  ∧ (NFA.simulate (regexToNFA (str "ab")) []).1 = false
  ∧ (∀ S, (NFA.simulate (regexToNFA []) S).1 = true ↔ S = []).
Proof.
  split_and!; try (by vm_compute).
  - intros S. rewrite (NFA_simulate_chain (str "ab")) by apply NFA_grown_refl.
    apply bool_decide_eq_true.
  - intros S. rewrite (NFA_simulate_chain []) by apply NFA_grown_refl.
    apply bool_decide_eq_true.
Qed.

Lemma foldl_pointwise {A B} (f g : A → B → A) (l : list B) :
  (∀ a b, f a b = g a b) → ∀ a, foldl f a l = foldl g a l.
Proof.
  intros Hfg. induction l as [|b l IH]; intros a; cbn [foldl]; [done|].
  by rewrite Hfg, IH.
Qed.

Lemma approximateMatch_copies text pattern maxErrors :
  automata_searchsystem.approximateMatch text pattern maxErrors
  = approximateMatch text pattern maxErrors.
Proof.
  unfold automata_searchsystem.approximateMatch, approximateMatch.
  assert (automata_searchsystem.dp_fill text pattern = dp_fill text pattern) as ->; [|done].
  unfold automata_searchsystem.dp_fill, dp_fill. cbv zeta.
  apply foldl_pointwise. intros dp i.
  unfold automata_searchsystem.dp_row, dp_row.
  apply foldl_pointwise. intros dp' j.
  unfold automata_searchsystem.dp_cell, dp_cell.
  case_decide; [done|]. f_equal. lia.
Qed.

Lemma DFA_run_stuck pre : ∀ tr q q' c post,
  dfa_walk tr q pre = Some q' → dfa_next tr q' c = None →
  DFA.run tr q (pre ++ c :: post) = DFA.run tr q (pre ++ [c]).
Proof.
  induction pre as [|a pre IH]; intros tr q q' c post Hwalk Hnext;
    cbn [app DFA.run dfa_walk] in *.
  - injection Hwalk as <-.
    pose proof (index_entry tr q c) as He. fold (dfa_next tr q c) in He.
    destruct (index ∅ tr q) as [row tr1]. cbn [fst] in He.
    by rewrite He, Hnext.
  - pose proof (index_entry tr q a) as He. fold (dfa_next tr q a) in He.
    pose proof (index_grown tr q) as Hg.
    destruct (index ∅ tr q) as [row tr1]. cbn [fst snd] in *. rewrite He.
    destruct (dfa_next tr q a) as [to|]; [|done].
    apply (IH tr1 to q').
    + by rewrite (dfa_walk_grown tr tr1).
    + unfold dfa_next. by rewrite (grown_entry tr tr1).
Qed.

(** For any NFA: whatever [nfaToDFA] returns, it has left the NFA as it
    was up to rows without entries. *)
Lemma explore_grown cur cid σ c : grown (c_nfa σ) (c_nfa (explore cur cid σ c)).
Proof.
  unfold explore.
  destruct (foldl_collect c (int_set_iter cur) ∅ (c_nfa σ)) as (ntr & -> & Hg).
  case_decide; [done|].
  destruct (c_id σ !! _); destruct (index 0 _ _); destruct (index ∅ _ _); done.
Qed.

Lemma explore_fold_grown cur cid cs : ∀ σ,
  grown (c_nfa σ) (c_nfa (foldl (explore cur cid) σ cs)).
Proof.
  induction cs as [|c cs IH]; intros σ; cbn [foldl]; [apply grown_refl|].
  eapply grown_trans; [apply explore_grown | apply IH].
Qed.

Lemma nfaToDFA_body_grown finals σ σ' :
  nfaToDFA_body finals σ = Next σ' → grown (c_nfa σ) (c_nfa σ').
Proof.
  unfold nfaToDFA_body. destruct (c_q σ) as [|cur q']; [done|].
  destruct (index 0 (c_id σ) cur) as [cid id1]. intros [= <-]. cbn [c_nfa].
  apply (explore_fold_grown cur cid _
           (mkConv _ (c_nfa σ) id1 q' (c_nextId σ))).
Qed.

Lemma while_loop_grown finals fuel : ∀ σ σ',
  while_loop fuel (nfaToDFA_body finals) σ = Some (inl σ') →
  grown (c_nfa σ) (c_nfa σ').
Proof.
  induction fuel as [|fuel IH]; intros σ σ'; cbn [while_loop]; [done|].
  destruct (nfaToDFA_body finals σ) as [σ1|σ1|[]] eqn:Hbody.
  - intros Hloop. eapply grown_trans; [by eapply nfaToDFA_body_grown | by apply IH].
  - intros [= <-]. unfold nfaToDFA_body in Hbody.
    destruct (c_q σ); [|by destruct (index 0 _ _)].
    injection Hbody as <-. apply grown_refl.
Qed.

Lemma nfaToDFA_grown fuel nfa dfa nfa' :
  nfaToDFA fuel nfa = Some (dfa, nfa') → NFA_grown nfa nfa'.
Proof.
  unfold nfaToDFA.
  destruct (while_loop _ _ _) as [[σ|[]]|] eqn:Hloop; [|done].
  intros [= <- <-]. apply while_loop_grown in Hloop. by repeat split.
Qed.

(** C3, as the code has it.  Neither [NFA::simulate] nor [nfaToDFA] leaves
    the NFA of a literal pattern exactly as it was: [operator[]] adds a
    row without entries for a state whose row is looked up and missing.
    States, alphabet, start state, final states and the edges stay as
    they were. *)
Theorem nfa_only_grows (P S : list ascii) (fuel : nat) :
  (length P + 1 < fuel)%nat →
  let nfa := regexToNFA P in
  NFA_grown nfa (NFA.simulate nfa S).2
  ∧ (∀ q c q', edge (NFA.transitions (NFA.simulate nfa S).2) q c q'
               ↔ edge (NFA.transitions nfa) q c q')
  ∧ ∃ dfa nfa',
      nfaToDFA fuel nfa = Some (dfa, nfa')
      ∧ NFA_grown nfa nfa'
      ∧ (∀ q c q', edge (NFA.transitions nfa') q c q'
                   ↔ edge (NFA.transitions nfa) q c q').
Proof.
  intros Hfuel nfa.
  assert (NFA_grown nfa (NFA.simulate nfa S).2) as Hsim.
  { unfold NFA.simulate.
    pose proof (NFA_run_grown S (NFA.transitions nfa) {[NFA.startState nfa]}) as Hg.
    destruct (NFA.run _ _ _) as [r tr]. by repeat split. }
  split_and!; [done | |].
  - intros q c q'. apply edge_grown, Hsim.
  - eexists _, _. split; [by apply nfaToDFA_chain|].
    pose proof (chain_touched_grown P) as Hg. split; [by repeat split|].
    intros q c q'. by apply edge_grown.
Qed.

Lemma nfa_only_grows_witness :
  (length (str "a") + 1 < 3)%nat
  ∧ NFA_grown (regexToNFA (str "a")) (NFA.simulate (regexToNFA (str "a")) (str "aa")).2.
Proof.
  split; [simpl; lia|].
  apply (nfa_only_grows (str "a") (str "aa") 3). simpl; lia.
Defined.

(** C3, as stated, fails: after simulating "aa" on the NFA of "a", and
    after converting that NFA, its table holds a row for state 1 that was
    not there before. *)
Lemma nfa_mutated :
  NFA.transitions (regexToNFA (str "a")) !! 1 = None
  ∧ NFA.transitions (NFA.simulate (regexToNFA (str "a")) (str "aa")).2 !! 1 = Some ∅
  ∧ (NFA.simulate (regexToNFA (str "a")) (str "aa")).2 ≠ regexToNFA (str "a")
  ∧ ∃ dfa nfa',
      nfaToDFA 3 (regexToNFA (str "a")) = Some (dfa, nfa')
      ∧ NFA.transitions nfa' !! 1 = Some ∅
      ∧ nfa' ≠ regexToNFA (str "a").
Proof.
  assert (NFA.transitions (regexToNFA (str "a")) !! 1 = None) as Hbefore
    by (by vm_compute).
  split_and!.
  - done.
  - by vm_compute.
  - intros Heq. rewrite <-Heq in Hbefore at 1. by vm_compute in Hbefore.
  - eexists _, _. split; [by vm_compute|]. split; [by vm_compute|].
    intros Heq. apply (f_equal (λ n, NFA.transitions n !! 1)) in Heq.
    by vm_compute in Heq.
Qed.

(** C8. [DFA::simulate] walks from the start state, one recorded
    transition per symbol.  If the walk reaches a symbol with no entry in
    the row of the current state (as for any symbol that occurs in no
    row), the verdict is reject, the rest of the input is not looked at,
    and nothing fails; once the input is used up the verdict is whether
    the state reached is final.  The call leaves the DFA as it was up to
    rows without entries. *)
Theorem DFA_simulate_walk (dfa : DFA.t) (input : list ascii) :
  (DFA.simulate dfa input).1 = dfa_accepts dfa input
  ∧ (∀ pre c post q,
        input = pre ++ c :: post →
        dfa_walk (DFA.transitions dfa) (DFA.startState dfa) pre = Some q →
        dfa_next (DFA.transitions dfa) q c = None →
        (DFA.simulate dfa input).1 = false
        ∧ DFA.simulate dfa input = DFA.simulate dfa (pre ++ [c]))
  ∧ (∀ c, c ∈ input → (∀ q, dfa_next (DFA.transitions dfa) q c = None) →
          (DFA.simulate dfa input).1 = false)
  ∧ (∀ q, dfa_walk (DFA.transitions dfa) (DFA.startState dfa) input = Some q →
          (DFA.simulate dfa input).1 = bool_decide (q ∈ DFA.finalStates dfa))
  ∧ DFA_grown dfa (DFA.simulate dfa input).2.
Proof.
  split_and!.
  - apply DFA_simulate_accepts.
  - intros pre c post q -> Hwalk Hnext. split.
    + rewrite DFA_simulate_accepts. unfold dfa_accepts.
      rewrite dfa_walk_app, Hwalk. cbn. by rewrite Hnext.
    + unfold DFA.simulate. by rewrite (DFA_run_stuck pre _ _ q).
  - intros c Hin Hdead. rewrite DFA_simulate_accepts. unfold dfa_accepts.
    apply list_elem_of_split in Hin as (pre & post & ->).
    rewrite dfa_walk_app.
    destruct (dfa_walk _ _ pre) as [q|]; [|done]. cbn. by rewrite Hdead.
  - intros q Hwalk. rewrite DFA_simulate_accepts. unfold dfa_accepts. by rewrite Hwalk.
  - apply DFA_simulate_grown.
Qed.

Lemma DFA_simulate_walk_witness :
  (DFA.simulate (chain_dfa (str "ab")) (str "axb")).1 = false
  ∧ DFA.simulate (chain_dfa (str "ab")) (str "axb")
    = DFA.simulate (chain_dfa (str "ab")) (str "a" ++ ["x"%char]).
Proof.
  apply (proj1 (proj2 (DFA_simulate_walk (chain_dfa (str "ab")) (str "axb")))
           (str "a") "x"%char (str "b") 1); by vm_compute.
Defined.

(** C4. [approximateMatch] answers true exactly when some [i] between
    [|pattern|] and [|text|] has [dp[i][|pattern|] ≤ maxErrors], where [dp]
    is the table with [dp[0][j] = j], [dp[i][0] = 0], the diagonal on equal
    symbols and one more than the least of the three neighbours otherwise;
    the table the code fills is that table.  Both copies of the program
    agree. *)
Theorem approximateMatch_table (text pattern : list ascii) (maxErrors : Z) :
  (approximateMatch text pattern maxErrors = true ↔
   ∃ i : nat, (length pattern ≤ i ≤ length text)%nat
              ∧ dp_spec text pattern i (length pattern) ≤ maxErrors)
  ∧ (∀ i j : nat, (i ≤ length text)%nat → (j ≤ length pattern)%nat →
       dp_read (dp_fill text pattern) i j = dp_spec text pattern i j)
  ∧ (∀ j : nat, dp_spec text pattern 0 j = Z.of_nat j)
  ∧ (∀ i : nat, dp_spec text pattern i 0 = 0)
  ∧ (∀ i j : nat,
       dp_spec text pattern (S i) (S j)
       = if decide (text !! i = pattern !! j) then dp_spec text pattern i j
         else 1 + Z.min (dp_spec text pattern i j)
                    (Z.min (dp_spec text pattern (S i) j)
                       (dp_spec text pattern i (S j))))
  ∧ automata_searchsystem.approximateMatch text pattern maxErrors
    = approximateMatch text pattern maxErrors.
Proof.
  split_and!.
  - apply approximateMatch_spec.
  - intros i j. apply dp_fill_spec.
  - apply dp_spec_row0.
  - apply dp_spec_col0.
  - apply dp_spec_step.
  - apply approximateMatch_copies.
Qed.

Lemma approximateMatch_table_witness :
  dp_read (dp_fill (str "abcde") (str "xcd")) 4 3 = dp_spec (str "abcde") (str "xcd") 4 3.
Proof.
  apply (proj1 (proj2 (approximateMatch_table (str "abcde") (str "xcd") 1)) 4%nat 3%nat);
    simpl; lia.
Defined.

(** C7. With no errors allowed, [approximateMatch] answers true exactly
    when the pattern occurs in the text as a contiguous substring. *)
Theorem approximateMatch_exact (text pattern : list ascii) :
  approximateMatch text pattern 0 = true ↔
  ∃ pre post, text = pre ++ pattern ++ post.
Proof.
  rewrite approximateMatch_spec, occurrence_suffix.
  apply exist_proper. intros i. split.
  - intros [Hi Hle]. split; [done|].
    pose proof (dp_spec_nonneg text pattern i (length pattern)).
    rewrite <-(firstn_all pattern). apply dp_spec_zero; lia.
  - intros [Hi Hsuf]. split; [done|].
    rewrite <-(firstn_all pattern) in Hsuf.
    apply dp_spec_zero in Hsuf; lia.
Qed.

(** C10. A pattern longer than the text never matches, whatever the
    error budget: the closing scan has nothing to look at. *)
Theorem approximateMatch_longer_pattern (text pattern : list ascii) (maxErrors : Z) :
  (length text < length pattern)%nat →
  approximateMatch text pattern maxErrors = false
  ∧ automata_searchsystem.approximateMatch text pattern maxErrors = false.
Proof.
  intros Hlen. rewrite approximateMatch_copies.
  assert (approximateMatch text pattern maxErrors = false) as ->; [|done].
  unfold approximateMatch. cbv zeta.
  by replace (length text + 1 - length pattern)%nat with 0%nat by lia.
Qed.

Lemma approximateMatch_longer_pattern_witness :
  (length (str "ab") < length (str "abc"))%nat
  ∧ approximateMatch (str "ab") (str "abc") 1000 = false
  ∧ automata_searchsystem.approximateMatch (str "ab") (str "abc") 1000 = false.
Proof.
  split; [simpl; lia|].
  apply (approximateMatch_longer_pattern (str "ab") (str "abc") 1000). simpl; lia.
Defined.

(** C5. [PDA::simulate] always answers, and answers true exactly on the
    strings a^n b^n, [n ≥ 0].  On an input read as its leading a's, the b's
    after them and what is left, it accepts iff nothing is left and the
    two runs have the same length: more b's than a's, any symbol after
    the b's, or a symbol other than b after the a's reject. *)
Theorem PDA_simulate_anbn (input : list ascii) :
  is_Some (PDA.simulate input)
  ∧ (PDA.simulate input = Some true ↔
     ∃ n : nat, input = replicate n "a"%char ++ replicate n "b"%char)
  ∧ (∀ (k j : nat) (rest : list ascii),
       input = replicate k "a"%char ++ replicate j "b"%char ++ rest →
       head rest ≠ Some "b"%char →
       (j = 0%nat → head rest ≠ Some "a"%char) →
       PDA.simulate input = Some (bool_decide (j = k ∧ rest = []))).
Proof.
  assert (∀ (k j : nat) (rest : list ascii),
            input = replicate k "a"%char ++ replicate j "b"%char ++ rest →
            head rest ≠ Some "b"%char →
            (j = 0%nat → head rest ≠ Some "a"%char) →
            PDA.simulate input = Some (bool_decide (j = k ∧ rest = []))) as Hsplit.
  { intros k j rest -> Hb Ha. by apply PDA_simulate_split. }
  destruct (span_char "a"%char input) as (k & rest1 & Hin1 & Ha).
  destruct (span_char "b"%char rest1) as (j & rest & -> & Hb).
  assert (j = 0%nat → head rest ≠ Some "a"%char) as Ha' by (by intros ->).
  split_and!; [|split|done].
  - rewrite (Hsplit k j rest) by done. by eexists.
  - rewrite (Hsplit k j rest) by done. intros [= Hdec].
    apply bool_decide_eq_true in Hdec as [-> ->].
    exists k. by rewrite Hin1, app_nil_r.
  - intros [n ->]. rewrite (Hsplit n n []); [| by rewrite app_nil_r | done | done].
    by rewrite bool_decide_eq_true_2.
Qed.

Lemma PDA_simulate_anbn_witness :
  PDA.simulate (str "aabbb") = Some false.
Proof.
  apply (proj2 (proj2 (PDA_simulate_anbn (str "aabbb"))) 2%nat 3%nat []); by vm_compute.
Defined.
